(** * EZD global minimization (libgibbs, optimizer/utils/ezd_minimization.hpp)

    The header declares the template [Domain<T>] and the entry point
    [LocateMinima].  [Domain] is embedded as it is written.  The body of
    [LocateMinima] is not part of the header; the partition engine below
    follows the algorithm of the specification (sections 4.2-4.4, 6, 7) and
    every definition of it is marked as modelled from the spec.
    Coordinates and energies are rationals [Q]. *)

From stdpp Require Import base list.
From Stdlib Require Import QArith Qabs Qminmax Lqa.

(** ** The data model *)

(** [template <typename T> struct Domain { vector<vector<T>> lower_left_corner;
    vector<vector<T>> upper_right_corner; };] *)
Record Domain (T : Type) := mkDomain {
  lower_left_corner : list (list T);
  upper_right_corner : list (list T)
}.
Arguments mkDomain {T} _ _.
Arguments lower_left_corner {T} _.
Arguments upper_right_corner {T} _.

(** A point of composition space: one coordinate sequence per sublattice. *)
Definition point := list (list Q).

(** [c[i][j]], or [None] when out of range. *)
Definition coord (c : list (list Q)) (i j : nat) : option Q :=
  c !! i ≫= (fun r => r !! j).

(** Number of sublattices and site species per sublattice. *)
Definition shape (c : list (list Q)) : list nat := map length c.

(** [c[i][j] = v] (no change out of range). *)
Definition set_coord (c : list (list Q)) (i j : nat) (v : Q) : list (list Q) :=
  alter (fun r => <[j := v]> r) i c.

(** The corner invariants of a Domain: equal shapes, and
    [lower_left_corner[i][j] <= upper_right_corner[i][j]]. *)
Definition well_formed (d : Domain Q) : Prop :=
  shape (lower_left_corner d) = shape (upper_right_corner d) /\
  forall i j l u,
    coord (lower_left_corner d) i j = Some l ->
    coord (upper_right_corner d) i j = Some u -> (l <= u)%Q.

(** Point membership in the closed hyper-rectangle. *)
Definition in_dom (d : Domain Q) (p : point) : Prop :=
  shape p = shape (lower_left_corner d) /\
  shape (lower_left_corner d) = shape (upper_right_corner d) /\
  forall i j l u x,
    coord (lower_left_corner d) i j = Some l ->
    coord (upper_right_corner d) i j = Some u ->
    coord p i j = Some x -> (l <= x)%Q /\ (x <= u)%Q.

(** Point membership in the open interior. *)
Definition in_interior (d : Domain Q) (p : point) : Prop :=
  shape p = shape (lower_left_corner d) /\
  shape (lower_left_corner d) = shape (upper_right_corner d) /\
  forall i j l u x,
    coord (lower_left_corner d) i j = Some l ->
    coord (upper_right_corner d) i j = Some u ->
    coord p i j = Some x -> (l < x)%Q /\ (x < u)%Q.

(** [c] lies inside [d]: same shapes, corners moved inward only. *)
Definition sub_domain (c d : Domain Q) : Prop :=
  shape (lower_left_corner c) = shape (lower_left_corner d) /\
  shape (upper_right_corner c) = shape (upper_right_corner d) /\
  forall i j l u lc uc,
    coord (lower_left_corner d) i j = Some l ->
    coord (upper_right_corner d) i j = Some u ->
    coord (lower_left_corner c) i j = Some lc ->
    coord (upper_right_corner c) i j = Some uc -> (l <= lc)%Q /\ (uc <= u)%Q.

(** ** Domain operations (spec 4.1), modelled from the spec *)

Definition Qltb (a b : Q) : bool := negb (Qle_bool b a).

(** Modelled from the spec: the per-axis extents, in axis-priority order
    (sublattice index, then site index), each with its two bounds. *)
Definition axis_extents (d : Domain Q) : list (nat * nat * Q * Q) :=
  concat (imap (fun i lu =>
     imap (fun j lu' => (i, j, lu'.1, lu'.2)) (zip lu.1 lu.2))
   (zip (lower_left_corner d) (upper_right_corner d))).

Definition extent (a : nat * nat * Q * Q) : Q := (a.2 - a.1.2)%Q.

(** The first axis of greatest extent (ties go to the earlier axis). *)
Fixpoint widest (best : nat * nat * Q * Q) (r : list (nat * nat * Q * Q))
  : nat * nat * Q * Q :=
  match r with
  | [] => best
  | a :: r' => widest (if Qltb (extent best) (extent a) then a else best) r'
  end.

(** Modelled from the spec: the width query, the maximum per-axis extent. *)
Definition width (d : Domain Q) : Q :=
  fold_right Qmax 0%Q (map extent (axis_extents d)).

(** Modelled from the spec: split along the widest axis at its midpoint into
    a lower and an upper child; a Domain without any axis is not split. *)
Definition split (d : Domain Q) : list (Domain Q) :=
  match axis_extents d with
  | [] => [d]
  | a :: r =>
      let '(i, j, l, u) := widest a r in
      let m := Qred ((l + u) * (1 # 2)) in
      [mkDomain (lower_left_corner d) (set_coord (upper_right_corner d) i j m);
       mkDomain (set_coord (lower_left_corner d) i j m) (upper_right_corner d)]
  end.

(** Modelled from the spec: the initial Domain of a phase, [0,1] on every
    site-fraction axis; [sh] gives the number of species per sublattice. *)
Definition initial_domain (sh : list nat) : Domain Q :=
  mkDomain (map (fun n => replicate n 0%Q) sh) (map (fun n => replicate n 1%Q) sh).

(** Decision procedure for the corner invariants. *)
Definition well_formedb (d : Domain Q) : bool :=
  bool_decide (shape (lower_left_corner d) = shape (upper_right_corner d)) &&
  forallb (fun a => Qle_bool a.1.2 a.2) (axis_extents d).

(** [d'] is reached from [d] by repeated splits. *)
Inductive descends : Domain Q -> Domain Q -> Prop :=
| descends_refl d : descends d d
| descends_split d c d' : In c (split d) -> descends c d' -> descends d d'.


(** ** The partition engine (spec 4.2-4.4), modelled from the spec *)

(** Modelled from the spec: the three-valued Domain-level feasibility result
    of the constraint evaluator (spec 4.2, 9). *)
Inductive Feas := CertInfeasible | CertFeasible | Mixed.

(** Modelled from the spec: an output record (point, energy, source-Domain
    width). *)
Record CandidateMinimum := mkCandidate {
  cm_point : point;
  cm_energy : Q;
  cm_width : Q
}.

(** Modelled from the spec: the call-level error (spec 7). *)
Inductive EZDError := ConfigurationError.

(** Modelled from the spec: the configuration constants left open by the
    spec (9): inward sampling offset, absolute and relative energy
    tolerance, squared merge distance, resolution floor. *)
Definition interior_offset : Q := 1 # 100.
Definition tol_abs : Q := 1 # 1000000.
Definition tol_rel : Q := 1 # 1000000.
Definition merge_dist2 : Q := 1 # 10000.
Definition resolution_floor : Q := 1 # 1000.

(** The C++ default argument [depth = 1]. *)
Definition default_depth : nat := 1.

Definition zipc (f : Q -> Q -> Q) (a b : list (list Q)) : list (list Q) :=
  zip_with (zip_with f) a b.

(** Modelled from the spec: the interior reference points of a Domain, its
    centroid and its two corners moved inward by [interior_offset]. *)
Definition centroid (d : Domain Q) : point :=
  zipc (fun l u => Qred ((l + u) * (1 # 2)))
    (lower_left_corner d) (upper_right_corner d).
Definition inner_lower (d : Domain Q) : point :=
  zipc (fun l u => Qred (l + interior_offset * (u - l)))
    (lower_left_corner d) (upper_right_corner d).
Definition inner_upper (d : Domain Q) : point :=
  zipc (fun l u => Qred (u - interior_offset * (u - l)))
    (lower_left_corner d) (upper_right_corner d).
Definition sample_points (d : Domain Q) : list point :=
  [centroid d; inner_lower d; inner_upper d].

Definition dist2 (p q : point) : Q :=
  fold_right Qplus 0%Q (map (fun x => x * x)%Q (concat (zipc Qminus p q))).

(** Modelled from the spec: combined relative-and-absolute tolerance. *)
Definition approx_eq (a b : Q) : bool :=
  Qle_bool (Qabs (a - b)) (tol_abs + tol_rel * Qmax (Qabs a) (Qabs b)).
Definition lt_tol (a b : Q) : bool := Qltb a b && negb (approx_eq a b).

(** Modelled from the spec: sample [a] beats sample [b] when its energy is
    lower beyond tolerance, or equal within tolerance and closer to the
    centroid [cen]. *)
Definition better (cen : point) (a b : point * Q) : bool :=
  lt_tol a.2 b.2 || (approx_eq a.2 b.2 && Qltb (dist2 a.1 cen) (dist2 b.1 cen)).

Definition best_sample (d : Domain Q) (ks : list (point * Q)) : option (point * Q) :=
  match ks with
  | [] => None
  | k :: r => Some (fold_left (fun b a => if better (centroid d) a b then a else b) r k)
  end.

(** Modelled from the spec: the spread of the sampled energies. *)
Definition spread (ks : list (point * Q)) : Q :=
  match ks with
  | [] => 0%Q
  | k :: r => (fold_left Qmax (map snd r) k.2 - fold_left Qmin (map snd r) k.2)%Q
  end.

(** Modelled from the spec (4.4 step 2c, 7): a Domain with no usable sample
    is pruned; otherwise it is pruned when every sample exceeds the running
    bound by more than the spread. *)
Definition prunable (bb : option Q) (ks : list (point * Q)) : bool :=
  match ks with
  | [] => true
  | _ => match bb with
         | None => false
         | Some b => forallb (fun k => lt_tol (b + spread ks) k.2) ks
         end
  end.

Definition new_bound (bb : option Q) (ks : list (point * Q)) : option Q :=
  fold_left (fun b k => Some (match b with None => k.2 | Some x => Qmin x k.2 end)) ks bb.

(** Modelled from the spec (4.4 step 3): merge near-duplicate candidates,
    keeping the lower-energy one. *)
Definition near (a c : CandidateMinimum) : bool :=
  Qle_bool (dist2 (cm_point a) (cm_point c)) merge_dist2 &&
  approx_eq (cm_energy a) (cm_energy c).

Fixpoint merge_into (c : CandidateMinimum) (acc : list CandidateMinimum)
  : list CandidateMinimum :=
  match acc with
  | [] => [c]
  | a :: r =>
      if near a c then (if Qltb (cm_energy c) (cm_energy a) then c else a) :: r
      else a :: merge_into c r
  end.

Definition dedup (cs : list CandidateMinimum) : list CandidateMinimum :=
  fold_left (fun acc c => merge_into c acc) cs [].

Section Engine.

(** The three collaborators of [LocateMinima] are opaque types; their
    interfaces (spec 4.2, 4.3) are functions on them. *)
Variables CompositionSet sublattice_set evalconditions : Type.
(** Number of site species of each sublattice of the phase. *)
Variable phase_shape : CompositionSet -> list nat.
(** [energy(point, conditions)], [None] for an undefined sample. *)
Variable energy : CompositionSet -> evalconditions -> point -> option Q.
Variable feasible : sublattice_set -> point -> bool.
Variable classify : sublattice_set -> Domain Q -> Feas.

(** Modelled from the spec: the state of one call.  The three arguments are
    passed by const reference; the running best bound (spec 9) is the only
    state of the algorithm. *)
Record Store := mkStore {
  st_phase : CompositionSet;
  st_sublset : sublattice_set;
  st_conds : evalconditions;
  st_best : option Q
}.

(** The three const-reference arguments of a store. *)
Definition same_args (st st' : Store) : Prop :=
  st_phase st' = st_phase st /\ st_sublset st' = st_sublset st /\
  st_conds st' = st_conds st.

Definition M (A : Type) : Type := Store -> A * Store.
Definition ret {A} (a : A) : M A := fun s => (a, s).
Definition bind {A B} (m : M A) (k : A -> M B) : M B :=
  fun s => let '(a, s') := m s in k a s'.
Definition get : M Store := fun s => (s, s).
Definition set_best (b : option Q) : M unit :=
  fun s => (tt, mkStore (st_phase s) (st_sublset s) (st_conds s) b).

Local Notation "'let!' x ':=' m 'in' k" := (bind m (fun x => k))
  (at level 200, x name, m at level 100, k at level 200).

Definition point_ok (ss : sublattice_set) (cls : Feas) (p : point) : bool :=
  match cls with Mixed => feasible ss p | _ => true end.

(** Modelled from the spec (4.4 step 2b): the samples kept, each with its
    energy; point-level checks only in a mixed Domain. *)
Definition evaluated_samples (st : Store) (cls : Feas) (d : Domain Q)
  : list (point * Q) :=
  omap (fun p => if point_ok (st_sublset st) cls p
                 then (fun e => (p, e)) <$> energy (st_phase st) (st_conds st) p
                 else None) (sample_points d).

Definition emit (d : Domain Q) (ks : list (point * Q)) : list CandidateMinimum :=
  match best_sample d ks with
  | Some (p, e) => [mkCandidate p e (width d)]
  | None => []
  end.

(** Run [f] on each child in turn and concatenate the results. *)
Fixpoint concat_mapM (f : Domain Q -> M (list CandidateMinimum)) (ds : list (Domain Q))
  : M (list CandidateMinimum) :=
  match ds with
  | [] => ret []
  | c :: r => let! xs := f c in let! ys := concat_mapM f r in ret (xs ++ ys)
  end.

(** Modelled from the spec (4.4 step 2): the recursive partition engine. *)
Fixpoint ezd (n : nat) (d : Domain Q) : M (list CandidateMinimum) :=
  let! st := get in
  match classify (st_sublset st) d with
  | CertInfeasible => ret []
  | cls =>
      let ks := evaluated_samples st cls d in
      if prunable (st_best st) ks then ret [] else
      let! _ := set_best (new_bound (st_best st) ks) in
      match n with
      | O => ret (emit d ks)
      | S n' =>
          if Qle_bool (width d) resolution_floor then ret (emit d ks)
          else concat_mapM (ezd n') (split d)
      end
  end.

(** Modelled from the spec (4.4 steps 1, 3, 4; 6; 7): the body of
    [LocateMinima], with the final state of the call. *)
Definition LocateMinima_body (phase : CompositionSet) (sublset : sublattice_set)
    (conditions : evalconditions) (depth : nat)
    : (EZDError + list CandidateMinimum) * Store :=
  let '(cs, st) := ezd depth (initial_domain (phase_shape phase))
                     (mkStore phase sublset conditions None) in
  match st_best st with
  | None => (inl ConfigurationError, st)
  | Some _ => (inr (dedup cs), st)
  end.

(** Modelled from the spec (6, 7) on the header's declaration
    [void LocateMinima(CompositionSet const &phase, sublattice_set const
    &sublset, evalconditions const& conditions, const std::size_t depth = 1);]:
    the result is [void], so a call either completes with no value ([inr tt])
    or fails, reporting the configuration error of its body to the caller
    (by throwing, for a [void] function). *)
Definition LocateMinima (phase : CompositionSet) (sublset : sublattice_set)
    (conditions : evalconditions) (depth : nat) : EZDError + unit :=
  match fst (LocateMinima_body phase sublset conditions depth) with
  | inl e => inl e
  | inr _ => inr tt
  end.

End Engine.

Arguments same_args {_ _ _} _ _.
Arguments st_phase {_ _ _} _.
Arguments st_sublset {_ _ _} _.
Arguments st_conds {_ _ _} _.
Arguments st_best {_ _ _} _.
Arguments mkStore {_ _ _} _ _ _ _.
Arguments ret {_ _ _ _} _.
Arguments bind {_ _ _ _ _} _ _.
Arguments get {_ _ _}.
Arguments set_best {_ _ _} _.

(** ** A concrete phase for the examples

    One sublattice with two species; the energy is undefined at a zero
    first site fraction (a logarithmic singularity in a real model). *)
Definition ex_shape (_ : unit) : list nat := [2%nat].
Definition ex_energy (_ : unit) (_ : unit) (p : point) : option Q :=
  match p with
  | [[x; y]] => if Qeq_bool x 0 then None
                else Some ((x - (1 # 3)) * (x - (1 # 3)) + y)%Q
  | _ => None
  end.
(** Contradictory constraints: no point is feasible. *)
Definition ex_none (_ : unit) (_ : point) : bool := false.
Definition ex_undefined (_ : unit) (_ : unit) (_ : point) : option Q := None.
(** Unconstrained, and a constraint [x <= 1/2]. *)
Definition ex_any (_ : unit) (_ : point) : bool := true.
Definition ex_half (_ : unit) (p : point) : bool :=
  match p with [[x; _]] => Qle_bool x (1 # 2) | _ => false end.
(** The evaluator that always answers [Mixed] (valid per spec 4.2). *)
Definition ex_mixed (_ : unit) (_ : Domain Q) : Feas := Mixed.

Example split_ex :
  split (mkDomain [[0;0];[0]] [[1;1#4];[2]]) =
  [mkDomain [[0;0];[0]] [[1;1#4];[1]]; mkDomain [[0;0];[1]] [[1;1#4];[2]]].
Proof. vm_compute. reflexivity. Qed.

(** ** Lemmas on corners *)

Lemma shape_set_coord c i j v : shape (set_coord c i j v) = shape c.
Proof.
  unfold shape, set_coord. apply list_eq. intros k.
  rewrite !list_lookup_fmap, list_lookup_alter.
  case_decide; subst; [|done].
  destruct (c !! k); simpl; [by rewrite length_insert|done].
Qed.

Lemma coord_set_coord_eq c i j v :
  coord (set_coord c i j v) i j = (fun _ => v) <$> coord c i j.
Proof.
  unfold coord, set_coord. rewrite list_lookup_alter_eq.
  destruct (c !! i) as [r|]; simpl; [|done].
  destruct (decide (j < length r)%nat) as [Hj|Hj].
  - rewrite list_lookup_insert_eq by done.
    destruct (r !! j) eqn:E; [done|]. apply lookup_ge_None in E. lia.
  - rewrite !(lookup_ge_None_2 _ j); rewrite ?length_insert; simpl; auto; lia.
Qed.

Lemma coord_set_coord_ne c i j v i' j' :
  (i, j) <> (i', j') -> coord (set_coord c i j v) i' j' = coord c i' j'.
Proof.
  intros Hne. unfold coord, set_coord.
  destruct (decide (i = i')) as [<-|Hi].
  - rewrite list_lookup_alter_eq. destruct (c !! i) as [r|]; simpl; [|done].
    rewrite list_lookup_insert_ne; [done|]. congruence.
  - by rewrite list_lookup_alter_ne.
Qed.

Lemma coord_Some_length c i j x :
  coord c i j = Some x -> exists r, c !! i = Some r /\ r !! j = Some x.
Proof. unfold coord. destruct (c !! i) as [r|]; simpl; [eauto|done]. Qed.

(** Equal shapes give coordinates at the same places. *)
Lemma coord_shape_Some c c' i j x :
  shape c = shape c' -> coord c i j = Some x -> exists y, coord c' i j = Some y.
Proof.
  unfold shape, coord. intros Hs Hx.
  destruct (c !! i) as [r|] eqn:Er; simpl in Hx; [|done].
  assert (Hl : map length c !! i = Some (length r)) by (by rewrite list_lookup_fmap, Er).
  rewrite Hs, list_lookup_fmap in Hl.
  destruct (c' !! i) as [r'|]; simpl in *; [|done]. injection Hl as Hl.
  destruct (r' !! j) as [y|] eqn:Ey; [eauto|].
  apply lookup_ge_None in Ey. apply lookup_lt_Some in Hx. lia.
Qed.

Lemma coord_zipc f a b i j :
  coord (zipc f a b) i j =
  match coord a i j, coord b i j with
  | Some x, Some y => Some (f x y)
  | _, _ => None
  end.
Proof.
  unfold coord, zipc. rewrite lookup_zip_with.
  destruct (a !! i) as [ra|], (b !! i) as [rb|]; simpl; auto.
  - rewrite lookup_zip_with. destruct (ra !! j), (rb !! j); done.
  - destruct (ra !! j); done.
Qed.

Lemma shape_zipc f a b : shape a = shape b -> shape (zipc f a b) = shape a.
Proof.
  unfold shape, zipc. revert b. induction a as [|ra a IH]; intros [|rb b] H;
    simpl in *; try done.
  injection H as H1 H2. rewrite IH by done. f_equal.
  rewrite length_zip_with. lia.
Qed.

Lemma Qred_le_l a b : (a <= b)%Q -> (a <= Qred b)%Q.
Proof. intros H. by rewrite Qred_correct. Qed.
Lemma Qred_le_r a b : (a <= b)%Q -> (Qred a <= b)%Q.
Proof. intros H. by rewrite Qred_correct. Qed.

Lemma mid_between l u : (l <= u)%Q ->
  (l <= Qred ((l + u) * (1 # 2)))%Q /\ (Qred ((l + u) * (1 # 2)) <= u)%Q.
Proof. intros H. split; [apply Qred_le_l | apply Qred_le_r]; lra. Qed.

(** Every listed axis is an axis of both corners. *)
Lemma axis_extents_coord d i j l u :
  In (i, j, l, u) (axis_extents d) ->
  coord (lower_left_corner d) i j = Some l /\ coord (upper_right_corner d) i j = Some u.
Proof.
  unfold axis_extents. intros H. apply in_concat in H as (xs & Hxs & Hx).
  apply list_elem_of_In, elem_of_lookup_imap_1 in Hxs as (i' & [ra rb] & -> & Hi).
  apply list_elem_of_In, elem_of_lookup_imap_1 in Hx as (j' & [l' u'] & Heq & Hj).
  injection Heq as <- <- <- <-. unfold coord.
  rewrite lookup_zip_with in Hi. rewrite lookup_zip_with in Hj.
  destruct (lower_left_corner d !! i) as [ra'|], (upper_right_corner d !! i) as [rb'|];
    simplify_eq/=.
  destruct (ra !! j), (rb !! j); simplify_eq/=. done.
Qed.

Lemma coord_axis_extents d i j l u :
  coord (lower_left_corner d) i j = Some l -> coord (upper_right_corner d) i j = Some u ->
  In (i, j, l, u) (axis_extents d).
Proof.
  unfold coord, axis_extents. intros Hl Hu.
  destruct (lower_left_corner d !! i) as [ra|] eqn:Ea; simpl in Hl; [|done].
  destruct (upper_right_corner d !! i) as [rb|] eqn:Eb; simpl in Hu; [|done].
  apply in_concat. exists (imap (fun j lu' => (i, j, lu'.1, lu'.2)) (zip ra rb)).
  split; apply list_elem_of_In.
  - apply (elem_of_lookup_imap_2 (fun i lu => imap (fun j lu' => (i, j, lu'.1, lu'.2))
             (zip lu.1 lu.2)) _ (ra, rb) i).
    by rewrite lookup_zip_with, Ea, Eb.
  - apply (elem_of_lookup_imap_2 (fun j lu' => (i, j, lu'.1, lu'.2)) _ (l, u) j).
    by rewrite lookup_zip_with, Hl, Hu.
Qed.

Lemma well_formedb_sound d : well_formedb d = true -> well_formed d.
Proof.
  unfold well_formedb. intros [Hs Hall]%andb_prop. apply bool_decide_eq_true in Hs.
  split; [done|]. intros i j l u Hl Hu.
  rewrite forallb_forall in Hall.
  apply Qle_bool_iff, (Hall (i, j, l, u)), coord_axis_extents; done.
Qed.

Lemma widest_In a r : In (widest a r) (a :: r).
Proof.
  revert a. induction r as [|b r IH]; intros a; simpl; [auto|].
  destruct (Qltb (extent a) (extent b)).
  - destruct (IH b) as [H|H]; auto.
  - destruct (IH a) as [H|H]; auto.
Qed.

Section SplitChildren.
Variables (L U : list (list Q)) (i j : nat) (l u m : Q).
Hypothesis HL : coord L i j = Some l.
Hypothesis HU : coord U i j = Some u.
Hypothesis Hlm : (l <= m)%Q.
Hypothesis Hmu : (m <= u)%Q.

Lemma coord_set_U : coord (set_coord U i j m) i j = Some m.
Proof. by rewrite coord_set_coord_eq, HU. Qed.
Lemma coord_set_L : coord (set_coord L i j m) i j = Some m.
Proof. by rewrite coord_set_coord_eq, HL. Qed.

Lemma in_dom_lower_child p :
  in_dom (mkDomain L (set_coord U i j m)) p <->
  in_dom (mkDomain L U) p /\ forall x, coord p i j = Some x -> (x <= m)%Q.
Proof.
  unfold in_dom; simpl. rewrite shape_set_coord. split.
  - intros (Hs1 & Hs2 & H). split; [split; [done | split; [done|]]|].
    + intros i' j' l' u' x Hl Hu Hx.
      destruct (decide ((i, j) = (i', j'))) as [E|E].
      * injection E as <- <-. rewrite HU in Hu. injection Hu as <-.
        destruct (H i j l' m x Hl coord_set_U Hx). split; lra.
      * apply (H i' j' l' u' x Hl); [by rewrite coord_set_coord_ne|done].
    + intros x Hx. apply (H i j l m x HL coord_set_U Hx).
  - intros [(Hs1 & Hs2 & H) Hm]. split; [done | split; [done|]].
    intros i' j' l' u' x Hl Hu Hx.
    destruct (decide ((i, j) = (i', j'))) as [E|E].
    + injection E as <- <-. rewrite coord_set_U in Hu. injection Hu as <-.
      split; [apply (H i j l' u x Hl HU Hx) | apply Hm, Hx].
    + rewrite coord_set_coord_ne in Hu by done. apply (H i' j' l' u' x Hl Hu Hx).
Qed.

Lemma in_dom_upper_child p :
  in_dom (mkDomain (set_coord L i j m) U) p <->
  in_dom (mkDomain L U) p /\ forall x, coord p i j = Some x -> (m <= x)%Q.
Proof.
  unfold in_dom; simpl. rewrite shape_set_coord. split.
  - intros (Hs1 & Hs2 & H). split; [split; [done | split; [done|]]|].
    + intros i' j' l' u' x Hl Hu Hx.
      destruct (decide ((i, j) = (i', j'))) as [E|E].
      * injection E as <- <-. rewrite HL in Hl. injection Hl as <-.
        destruct (H i j m u' x coord_set_L Hu Hx). split; lra.
      * apply (H i' j' l' u' x); [by rewrite coord_set_coord_ne|done|done].
    + intros x Hx. apply (H i j m u x coord_set_L HU Hx).
  - intros [(Hs1 & Hs2 & H) Hm]. split; [done | split; [done|]].
    intros i' j' l' u' x Hl Hu Hx.
    destruct (decide ((i, j) = (i', j'))) as [E|E].
    + injection E as <- <-. rewrite coord_set_L in Hl. injection Hl as <-.
      split; [apply Hm, Hx | apply (H i j l u' x HL Hu Hx)].
    + rewrite coord_set_coord_ne in Hl by done. apply (H i' j' l' u' x Hl Hu Hx).
Qed.

Lemma interior_lower_child p x :
  in_interior (mkDomain L (set_coord U i j m)) p -> coord p i j = Some x -> (x < m)%Q.
Proof. intros (_ & _ & H) Hx. apply (H i j l m x HL coord_set_U Hx). Qed.

Lemma interior_upper_child p x :
  in_interior (mkDomain (set_coord L i j m) U) p -> coord p i j = Some x -> (m < x)%Q.
Proof. intros (_ & _ & H) Hx. apply (H i j m u x coord_set_L HU Hx). Qed.

Lemma wf_children :
  well_formed (mkDomain L U) ->
  well_formed (mkDomain L (set_coord U i j m)) /\
  well_formed (mkDomain (set_coord L i j m) U).
Proof.
  intros [Hs H]; unfold well_formed; simpl. rewrite !shape_set_coord.
  split; split; try done; intros i' j' l' u' Hl Hu;
    (destruct (decide ((i, j) = (i', j'))) as [E|E];
     [injection E as <- <- | rewrite coord_set_coord_ne in * by done; eauto]).
  - rewrite coord_set_U in Hu. rewrite HL in Hl. congruence.
  - rewrite coord_set_L in Hl. rewrite HU in Hu. congruence.
Qed.

Lemma sub_children :
  sub_domain (mkDomain L (set_coord U i j m)) (mkDomain L U) /\
  sub_domain (mkDomain (set_coord L i j m) U) (mkDomain L U).
Proof.
  unfold sub_domain; simpl. rewrite !shape_set_coord.
  split; split; try done; split; try done; intros i' j' l' u' lc uc Hl Hu Hlc Huc;
    (destruct (decide ((i, j) = (i', j'))) as [E|E];
     [injection E as <- <- | rewrite coord_set_coord_ne in * by done]).
  - rewrite coord_set_U in Huc. rewrite HL in Hl, Hlc. rewrite HU in Hu.
    simplify_eq. split; lra.
  - rewrite Hl in Hlc. rewrite Hu in Huc. simplify_eq. split; lra.
  - rewrite coord_set_L in Hlc. rewrite HL in Hl. rewrite HU in Hu, Huc.
    simplify_eq. split; lra.
  - rewrite Hl in Hlc. rewrite Hu in Huc. simplify_eq. split; lra.
Qed.

End SplitChildren.

(** The two outcomes of [split] on a Domain with the corner invariants. *)
Lemma split_cases d :
  well_formed d ->
  split d = [d] \/
  exists i j l u,
    coord (lower_left_corner d) i j = Some l /\
    coord (upper_right_corner d) i j = Some u /\ (l <= u)%Q /\
    split d =
      [mkDomain (lower_left_corner d)
         (set_coord (upper_right_corner d) i j (Qred ((l + u) * (1 # 2))));
       mkDomain (set_coord (lower_left_corner d) i j (Qred ((l + u) * (1 # 2))))
         (upper_right_corner d)].
Proof.
  intros [_ Hwf]. unfold split.
  destruct (axis_extents d) as [|a r] eqn:E; [by left|right].
  pose proof (widest_In a r) as Hin.
  destruct (widest a r) as [[[i j] l] u]. rewrite <- E in Hin.
  apply axis_extents_coord in Hin as [Hl Hu].
  exists i, j, l, u. eauto.
Qed.

Lemma sub_domain_refl d : well_formed d -> sub_domain d d.
Proof.
  intros [Hs H]. split; [done|split; [done|]].
  intros i j l u lc uc Hl Hu Hlc Huc. rewrite Hl in Hlc. rewrite Hu in Huc.
  simplify_eq. split; apply Qle_refl.
Qed.

Lemma well_formed_initial sh : well_formed (initial_domain sh).
Proof.
  unfold initial_domain, well_formed, shape, coord; simpl. split.
  - rewrite !map_map. apply map_ext. intros n. by rewrite !length_replicate.
  - intros i j l u Hl Hu. rewrite !list_lookup_fmap in Hl, Hu.
    destruct (sh !! i); simpl in *; [|done].
    apply lookup_replicate in Hl as [-> _]. apply lookup_replicate in Hu as [-> _].
    lra.
Qed.

Lemma split_well_formed d : well_formed d -> Forall well_formed (split d).
Proof.
  intros Hwf. destruct (split_cases d Hwf) as [->|(i & j & l & u & Hl & Hu & Hlu & ->)].
  - by constructor.
  - destruct d as [L U]; simpl in *.
    destruct (mid_between l u Hlu).
    destruct (wf_children L U i j l u (Qred ((l + u) * (1 # 2))) Hl Hu) as [H1 H2]; auto.
Qed.

Lemma split_union d p :
  well_formed d -> in_dom d p <-> exists c, In c (split d) /\ in_dom c p.
Proof.
  intros Hwf. destruct (split_cases d Hwf) as [->|(i & j & l & u & Hl & Hu & Hlu & ->)].
  - split; [eauto with datatypes|]. intros (c & [<-|[]] & Hc). done.
  - destruct d as [L U]; simpl in *. set (m := Qred ((l + u) * (1 # 2))).
    destruct (mid_between l u Hlu) as [Hlm Hmu]. fold m in Hlm, Hmu.
    split.
    + intros Hp. pose proof Hp as (Hs & _).
      destruct (coord_shape_Some L p i j l) as [x Hx]; [done|done|].
      destruct (Qlt_le_dec m x) as [Hx'|Hx'].
      * exists (mkDomain (set_coord L i j m) U). split; [simpl; auto|].
        apply (in_dom_upper_child L U i j l u m); auto.
        split; [done|]. intros y Hy. rewrite Hx in Hy. injection Hy as <-. lra.
      * exists (mkDomain L (set_coord U i j m)). split; [simpl; auto|].
        apply (in_dom_lower_child L U i j l u m); auto.
        split; [done|]. intros y Hy. rewrite Hx in Hy. injection Hy as <-. lra.
    + intros (c & [<-|[<-|[]]] & Hc).
      * apply (in_dom_lower_child L U i j l u m) in Hc; tauto.
      * apply (in_dom_upper_child L U i j l u m) in Hc; tauto.
Qed.

Lemma split_disjoint d k1 k2 c1 c2 p :
  well_formed d -> k1 <> k2 -> split d !! k1 = Some c1 -> split d !! k2 = Some c2 ->
  ~ (in_interior c1 p /\ in_interior c2 p).
Proof.
  intros Hwf Hk. destruct (split_cases d Hwf) as [->|(i & j & l & u & Hl & Hu & Hlu & ->)].
  - destruct k1 as [|[|k1]], k2 as [|[|k2]]; simpl; congruence.
  - destruct d as [L U]; simpl in *. set (m := Qred ((l + u) * (1 # 2))).
    destruct (mid_between l u Hlu) as [Hlm Hmu]. fold m in Hlm, Hmu.
    assert (Hgen : forall p, in_interior (mkDomain L (set_coord U i j m)) p ->
                   in_interior (mkDomain (set_coord L i j m) U) p -> False).
    { intros q H1 H2. pose proof H1 as (Hs & _). simpl in Hs.
      destruct (coord_shape_Some L q i j l) as [x Hx]; [done|done|].
      pose proof (interior_lower_child L U i j l u m Hl Hu q x H1 Hx).
      pose proof (interior_upper_child L U i j l u m Hl Hu q x H2 Hx). lra. }
    destruct k1 as [|[|k1]], k2 as [|[|k2]]; simpl; intros H1 H2; simplify_eq;
      try congruence; intros [? ?]; eauto.
Qed.

Lemma split_corners d :
  well_formed d ->
  (exists c, In c (split d) /\ lower_left_corner c = lower_left_corner d) /\
  (exists c, In c (split d) /\ upper_right_corner c = upper_right_corner d) /\
  Forall (fun c => sub_domain c d) (split d).
Proof.
  intros Hwf. pose proof (sub_domain_refl d Hwf) as Hrefl.
  destruct (split_cases d Hwf) as [->|(i & j & l & u & Hl & Hu & Hlu & ->)].
  - split; [|split]; [eexists; split; [left|]; done..|by constructor].
  - destruct d as [L U]; simpl in *.
    destruct (mid_between l u Hlu).
    edestruct (sub_children L U i j l u (Qred ((l + u) * (1 # 2)))) as [H1 H2];
      [eauto..|].
    split; [|split].
    + eexists; split; [left; done|done].
    + eexists; split; [right; left; done|done].
    + constructor; [done|constructor; [done|constructor]].
Qed.

Lemma descends_props d d' :
  well_formed d -> descends d d' ->
  well_formed d' /\
  shape (lower_left_corner d') = shape (lower_left_corner d) /\
  forall p, in_dom d' p -> in_dom d p.
Proof.
  intros Hwf Hd. induction Hd as [d|d c d' Hc Hd IH].
  - done.
  - pose proof (split_well_formed d Hwf) as Hall. rewrite List.Forall_forall in Hall.
    pose proof (split_corners d Hwf) as (_ & _ & Hsub). rewrite List.Forall_forall in Hsub.
    destruct (IH (Hall c Hc)) as (Hwf' & Hsh & Hin).
    split; [done|]. split.
    + rewrite Hsh. apply (Hsub c Hc).
    + intros p Hp. apply (split_union d p Hwf). eauto.
Qed.

Lemma sample_between f l u :
  f = (fun l u => Qred ((l + u) * (1 # 2))) \/
  f = (fun l u => Qred (l + interior_offset * (u - l))) \/
  f = (fun l u => Qred (u - interior_offset * (u - l))) ->
  (l <= u)%Q -> (l <= f l u)%Q /\ (f l u <= u)%Q.
Proof.
  unfold interior_offset. intros [ -> | [ -> | -> ] ] Hlu; simpl;
    (split; [apply Qred_le_l|apply Qred_le_r]); lra.
Qed.

Lemma sample_points_in_dom d p :
  well_formed d -> In p (sample_points d) ->
  in_dom d p /\ shape p = shape (lower_left_corner d).
Proof.
  intros [Hs Hwf] Hp.
  assert (Hf : exists f, p = zipc f (lower_left_corner d) (upper_right_corner d) /\
     (f = (fun l u => Qred ((l + u) * (1 # 2))) \/
      f = (fun l u => Qred (l + interior_offset * (u - l))) \/
      f = (fun l u => Qred (u - interior_offset * (u - l))))).
  { destruct Hp as [<-|[<-|[<-|[]]]]; eexists; split; try reflexivity; auto. }
  destruct Hf as (f & -> & Hf).
  assert (Hsh : shape (zipc f (lower_left_corner d) (upper_right_corner d)) =
                shape (lower_left_corner d)) by (by apply shape_zipc).
  split; [|done]. split; [done|]. split; [done|].
  intros i j l u x Hl Hu Hx. rewrite coord_zipc, Hl, Hu in Hx. injection Hx as <-.
  apply sample_between; [done|]. eauto.
Qed.

(** ** Facts about the engine *)

Section EngineFacts.
Context {CompositionSet sublattice_set evalconditions : Type}.
Context (phase_shape : CompositionSet -> list nat).
Context (energy : CompositionSet -> evalconditions -> point -> option Q).
Context (feasible : sublattice_set -> point -> bool).
Context (classify : sublattice_set -> Domain Q -> Feas).

Local Abbreviation Store := (Store CompositionSet sublattice_set evalconditions).
Local Abbreviation M := (M CompositionSet sublattice_set evalconditions).
Local Abbreviation ezd' := (ezd CompositionSet sublattice_set evalconditions energy feasible classify).
Local Abbreviation concat_mapM' := (concat_mapM CompositionSet sublattice_set evalconditions).
Local Abbreviation evaluated_samples' :=
  (evaluated_samples CompositionSet sublattice_set evalconditions energy feasible).
Local Abbreviation body :=
  (LocateMinima_body CompositionSet sublattice_set evalconditions
     phase_shape energy feasible classify).

Lemma same_args_refl (st : Store) : same_args st st.
Proof. done. Qed.

Lemma same_args_trans (st1 st2 st3 : Store) :
  same_args st1 st2 -> same_args st2 st3 -> same_args st1 st3.
Proof. intros (? & ? & ?) (? & ? & ?). split; [|split]; congruence. Qed.

Lemma concat_mapM_frame f ds st :
  (forall c st, same_args st (snd (f c st))) ->
  same_args st (snd (concat_mapM' f ds st)).
Proof.
  intros Hf. revert st. induction ds as [|c ds IH]; intros st; simpl; [done|].
  unfold bind. destruct (f c st) as [xs st1] eqn:E1.
  destruct (concat_mapM' f ds st1) as [ys st2] eqn:E2. simpl.
  apply (same_args_trans _ st1).
  - pose proof (Hf c st) as H. by rewrite E1 in H.
  - pose proof (IH st1) as H. by rewrite E2 in H.
Qed.

Lemma ezd_frame n : forall d st, same_args st (snd (ezd' n d st)).
Proof.
  induction n as [|n IH]; intros d st; simpl; unfold bind, get, ret, set_best;
    destruct (classify (st_sublset st) d); simpl; try done;
    destruct (prunable _ _); simpl; try done;
    destruct (Qle_bool (width d) resolution_floor); simpl; try done;
    (eapply same_args_trans; [|apply concat_mapM_frame, IH]; done).
Qed.

Lemma evaluated_samples_args st st' cls d :
  same_args st st' -> evaluated_samples' st' cls d = evaluated_samples' st cls d.
Proof.
  intros (Hp & Hs & Hc). unfold evaluated_samples. by rewrite Hp, Hs, Hc.
Qed.

Lemma best_sample_In d ks k : best_sample d ks = Some k -> In k ks.
Proof.
  destruct ks as [|k0 r]; simpl; [done|]. intros [= <-].
  assert (H : forall b, In b (k0 :: r) -> forall r', incl r' (k0 :: r) ->
            In (fold_left (fun b a => if better (centroid d) a b then a else b) r' b) (k0 :: r)).
  { intros b Hb r'. revert b Hb. induction r' as [|a r' IH]; intros b Hb Hincl; simpl; [done|].
    apply IH; [destruct (better _ _ _); [apply Hincl; left|]; done|].
    intros x Hx. apply Hincl. by right. }
  apply H; [by left|]. intros x Hx. by right.
Qed.

Lemma emit_In d ks k :
  In k (emit d ks) -> In (cm_point k, cm_energy k) ks /\ cm_width k = width d.
Proof.
  unfold emit. destruct (best_sample d ks) as [[p e]|] eqn:E; simpl; [|done].
  intros [<-|[]]. simpl. split; [|done]. by apply (best_sample_In d).
Qed.

Lemma concat_mapM_In f ds st k :
  (forall c st, same_args st (snd (f c st))) ->
  In k (fst (concat_mapM' f ds st)) ->
  exists c st', In c ds /\ same_args st st' /\ In k (fst (f c st')).
Proof.
  intros Hf. revert st. induction ds as [|c ds IH]; intros st; simpl; [done|].
  unfold bind. destruct (f c st) as [xs st1] eqn:E1.
  destruct (concat_mapM' f ds st1) as [ys st2] eqn:E2. simpl.
  intros [Hk|Hk]%in_app_or.
  - exists c, st. split; [by left|]. split; [done|]. by rewrite E1.
  - destruct (IH st1) as (c' & st' & Hc' & Hs & Hk'); [by rewrite E2|].
    exists c', st'. split; [by right|]. split; [|done].
    apply (same_args_trans _ st1); [|done]. pose proof (Hf c st) as H. by rewrite E1 in H.
Qed.

(** Every candidate of the engine is a kept sample of a Domain reached by
    splits, with that Domain's width. *)
Lemma ezd_candidates n : forall d st k,
  In k (fst (ezd' n d st)) ->
  exists d', descends d d' /\ classify (st_sublset st) d' <> CertInfeasible /\
    In (cm_point k, cm_energy k) (evaluated_samples' st (classify (st_sublset st) d') d') /\
    cm_width k = width d'.
Proof.
  induction n as [|n IH]; intros d st k; simpl; unfold bind, get, ret, set_best;
    destruct (classify (st_sublset st) d) eqn:Ecls; simpl; try done;
    destruct (prunable _ _); simpl; try done.
  1,2: intros Hk; apply emit_In in Hk as [Hk Hw]; exists d; rewrite Ecls;
       repeat split; [constructor|done|done|done].
  all: destruct (Qle_bool (width d) resolution_floor); simpl;
    [intros Hk; apply emit_In in Hk as [Hk Hw]; exists d; rewrite Ecls;
     repeat split; [constructor|done|done|done]|].
  all: intros Hk; apply concat_mapM_In in Hk as (c & st' & Hc & Hs & Hk);
    [|intros; apply ezd_frame].
  all: destruct (IH c st' k Hk) as (d' & Hd' & Hcls & Hin & Hw);
    destruct Hs as (Hp & Hss & Hcc); simpl in *; rewrite Hss in Hcls, Hin;
    exists d'; split; [by econstructor|]; split; [done|]; split; [|done];
    rewrite (evaluated_samples_args st st') in Hin; [done|split; [|split]]; congruence.
Qed.

Lemma evaluated_samples_In st cls d p e :
  In (p, e) (evaluated_samples' st cls d) ->
  In p (sample_points d) /\ point_ok sublattice_set feasible (st_sublset st) cls p = true /\
  energy (st_phase st) (st_conds st) p = Some e.
Proof.
  unfold evaluated_samples. intros H.
  apply list_elem_of_In, list_elem_of_omap in H as (q & Hq & H).
  apply list_elem_of_In in Hq.
  destruct (point_ok _ _ _ _ _) eqn:E; [|done].
  destruct (energy _ _ q) eqn:Ee; simpl in H; [|done]. injection H as <- <-. auto.
Qed.

Lemma merge_into_Forall (P : CandidateMinimum -> Prop) c acc :
  P c -> Forall P acc -> Forall P (merge_into c acc).
Proof.
  intros Hc Hacc. induction Hacc as [|a acc Ha Hacc IH]; simpl; [by constructor|].
  destruct (near a c); [|by constructor].
  constructor; [destruct (Qltb _ _)|]; done.
Qed.

Lemma dedup_Forall (P : CandidateMinimum -> Prop) cs :
  Forall P cs -> Forall P (dedup cs).
Proof.
  unfold dedup. intros Hcs.
  cut (forall acc, Forall P acc ->
         Forall P (fold_left (fun acc c => merge_into c acc) cs acc)).
  { intros H. apply H. constructor. }
  induction Hcs as [|c cs Hc Hcs IH]; intros acc Hacc; simpl; [done|].
  apply IH, merge_into_Forall; done.
Qed.

Lemma concat_mapM_inv (P : Store -> Prop) f ds st :
  (forall c st, In c ds -> P st -> P (snd (f c st))) ->
  P st -> P (snd (concat_mapM' f ds st)).
Proof.
  revert st. induction ds as [|c ds IH]; intros st Hf Hst; simpl; [done|].
  unfold bind. destruct (f c st) as [xs st1] eqn:E1.
  destruct (concat_mapM' f ds st1) as [ys st2] eqn:E2. simpl.
  pose proof (IH st1) as H. rewrite E2 in H. apply H.
  - intros c' st' Hc'. apply Hf. by right.
  - pose proof (Hf c st (or_introl eq_refl) Hst) as H'. by rewrite E1 in H'.
Qed.

Lemma new_bound_Some bb ks :
  (bb <> None \/ ks <> []) -> new_bound bb ks <> None.
Proof.
  unfold new_bound. revert bb. induction ks as [|k ks IH]; intros bb H; simpl.
  - destruct H; congruence.
  - apply IH. left. discriminate.
Qed.

(** Once a sample has been kept, the running bound stays set. *)
Lemma ezd_best_set n : forall d st,
  st_best st <> None -> st_best (snd (ezd' n d st)) <> None.
Proof.
  induction n as [|n IH]; intros d st Hb; simpl; unfold bind, get, ret, set_best;
    destruct (classify (st_sublset st) d); simpl; try done;
    destruct (prunable _ _); simpl; try done;
    try (destruct (Qle_bool (width d) resolution_floor); simpl);
    try (apply new_bound_Some; by left).
  all: apply concat_mapM_inv; [intros c st' _ H; by apply IH|];
       simpl; apply new_bound_Some; by left.
Qed.

Lemma shape_initial sh : shape (lower_left_corner (initial_domain sh)) = sh.
Proof.
  unfold shape, initial_domain; simpl. rewrite map_map.
  induction sh as [|n sh IH]; simpl; [done|]. by rewrite length_replicate, IH.
Qed.

End EngineFacts.

(** ** The claims *)

(** Claim C10: the [Domain] type places no constraint on its corners: any
    two coordinate sequences make a Domain, including ones of different
    shapes and ones with a lower coordinate above the upper one. *)
Theorem Domain_corners_unconstrained :
  (forall L U : list (list Q),
     exists d : Domain Q, lower_left_corner d = L /\ upper_right_corner d = U) /\
  (exists d : Domain Q,
     shape (lower_left_corner d) <> shape (upper_right_corner d)) /\
  (exists d : Domain Q,
     shape (lower_left_corner d) = shape (upper_right_corner d) /\
     exists i j l u, coord (lower_left_corner d) i j = Some l /\
       coord (upper_right_corner d) i j = Some u /\ (u < l)%Q) /\
  (exists d : Domain Q, ~ well_formed d).
Proof.
  split; [|split; [|split]].
  - intros L U. exists (mkDomain L U). done.
  - exists (mkDomain [[0%Q]] []). discriminate.
  - exists (mkDomain [[1%Q]] [[0%Q]]). split; [done|].
    exists 0%nat, 0%nat, 1%Q, 0%Q. split; [done|split; [done|lra]].
  - exists (mkDomain [[1%Q]] [[0%Q]]). intros [_ H].
    specialize (H 0%nat 0%nat 1%Q 0%Q eq_refl eq_refl). lra.
Qed.

(** Claim C7: splitting a Domain with the corner invariants gives children
    whose union is the parent, whose interiors are pairwise disjoint, one of
    which keeps the parent's lower corner and one its upper corner, and all
    of which lie inside the parent. *)
Theorem split_partitions_parent (d : Domain Q) :
  well_formed d ->
  (forall p, in_dom d p <-> exists c, In c (split d) /\ in_dom c p) /\
  (forall k1 k2 c1 c2 p, k1 <> k2 -> split d !! k1 = Some c1 ->
     split d !! k2 = Some c2 -> ~ (in_interior c1 p /\ in_interior c2 p)) /\
  (exists c, In c (split d) /\ lower_left_corner c = lower_left_corner d) /\
  (exists c, In c (split d) /\ upper_right_corner c = upper_right_corner d) /\
  Forall (fun c => sub_domain c d) (split d).
Proof.
  intros Hwf. split; [|split].
  - intros p. by apply split_union.
  - intros k1 k2 c1 c2 p. by apply split_disjoint.
  - by apply split_corners.
Qed.

(** Claim C8: the initial Domain has the corner invariants, [split]
    preserves them, every Domain reached from the initial one by splits has
    them, and a collapsed Domain (zero width) has them. *)
Theorem domain_invariant_preserved :
  (forall sh, well_formed (initial_domain sh)) /\
  (forall d, well_formed d -> Forall well_formed (split d)) /\
  (forall sh d', descends (initial_domain sh) d' -> well_formed d') /\
  (forall c, well_formed (mkDomain c c)).
Proof.
  split; [apply well_formed_initial|split; [apply split_well_formed|split]].
  - intros sh d' Hd. by destruct (descends_props _ _ (well_formed_initial sh) Hd).
  - intros c. split; [done|]. intros i j l u Hl Hu. simpl in *.
    rewrite Hl in Hu. injection Hu as <-. apply Qle_refl.
Qed.

Section EngineClaims.
Context (CompositionSet sublattice_set evalconditions : Type).
Context (phase_shape : CompositionSet -> list nat).
Context (energy : CompositionSet -> evalconditions -> point -> option Q).
Context (feasible : sublattice_set -> point -> bool).
Context (classify : sublattice_set -> Domain Q -> Feas).

Local Abbreviation ezd' := (ezd CompositionSet sublattice_set evalconditions energy feasible classify).
Local Abbreviation evaluated_samples' :=
  (evaluated_samples CompositionSet sublattice_set evalconditions energy feasible).
Local Abbreviation body :=
  (LocateMinima_body CompositionSet sublattice_set evalconditions
     phase_shape energy feasible classify).
Local Abbreviation LocateMinima' :=
  (LocateMinima CompositionSet sublattice_set evalconditions
     phase_shape energy feasible classify).

Section SoundClassifier.
Hypothesis classify_sound :
  forall ss d p, classify ss d = CertFeasible -> in_dom d p -> feasible ss p = true.

(** A Domain without feasible points contributes nothing and leaves the
    state as it was. *)
Lemma ezd_no_feasible n d st :
  well_formed d -> (forall p, in_dom d p -> feasible (st_sublset st) p = false) ->
  ezd' n d st = ([], st).
Proof.
  intros Hwf Hnf.
  assert (Hcen : in_dom d (centroid d)) by (apply sample_points_in_dom; [done|by left]).
  destruct n; simpl; unfold bind, get, ret, set_best;
    destruct (classify (st_sublset st) d) eqn:E; simpl; try done.
  1,3: exfalso; pose proof (Hnf _ Hcen) as H;
       rewrite (classify_sound _ _ _ E Hcen) in H; discriminate.
  all: destruct (evaluated_samples' st Mixed d) as [|[p e] r] eqn:Eks; simpl; [done|];
    exfalso; assert (Hin : In (p, e) (evaluated_samples' st Mixed d)) by (rewrite Eks; by left);
    apply evaluated_samples_In in Hin as (Hp & Hok & _); simpl in Hok;
    rewrite Hnf in Hok; [done|]; by apply sample_points_in_dom.
Qed.

End SoundClassifier.

(** A kept sample of the first Domain visited sets the running bound. *)
Lemma ezd_first_sample_sets_best n d st :
  st_best st = None -> classify (st_sublset st) d <> CertInfeasible ->
  evaluated_samples' st (classify (st_sublset st) d) d <> [] ->
  st_best (snd (ezd' n d st)) <> None.
Proof.
  intros Hb Hcls Hks.
  destruct n; simpl; unfold bind, get, ret, set_best;
    destruct (classify (st_sublset st) d) eqn:E; simpl; try done;
    destruct (evaluated_samples' st _ d) as [|k r] eqn:Eks; try done;
    rewrite Hb; simpl;
    try (destruct (Qle_bool (width d) resolution_floor); simpl);
    try (apply (new_bound_Some (Some k.2) r); by left).
  all: apply concat_mapM_inv; [intros c' st' _ H; by apply ezd_best_set|];
       simpl; apply (new_bound_Some (Some k.2) r); by left.
Qed.

(** Claim C2 (for a Domain classifier that is sound, i.e. answers
    [CertFeasible] only for Domains whose points are all feasible): every
    candidate of a successful call is feasible. *)
Theorem LocateMinima_candidates_feasible :
  (forall ss d p, classify ss d = CertFeasible -> in_dom d p -> feasible ss p = true) ->
  forall ph ss c depth cs,
    fst (body ph ss c depth) = inr cs ->
    Forall (fun k => feasible ss (cm_point k) = true) cs.
Proof.
  intros Hsound ph ss c depth cs. unfold LocateMinima_body.
  pose proof (ezd_candidates energy feasible classify depth
                (initial_domain (phase_shape ph)) (mkStore ph ss c None)) as Hc.
  destruct (ezd _ _ _ _ _ _ _ _ _) as [cs0 st].
  destruct (st_best st); simpl; [|done]. intros [= <-].
  apply dedup_Forall. apply List.Forall_forall. intros k Hk.
  destruct (Hc k Hk) as (d' & Hd' & Hcls & Hin & _). simpl in *.
  apply evaluated_samples_In in Hin as (Hp & Hok & _). simpl in Hok.
  destruct (descends_props _ _ (well_formed_initial (phase_shape ph)) Hd') as (Hwf & _).
  destruct (classify ss d') eqn:E; [done| |done].
  apply (Hsound ss d'); [done|]. by apply sample_points_in_dom.
Qed.

(** Claim C4: at depth 0 a successful call returns exactly one candidate:
    the best interior sample of the initial Domain, with that Domain's
    width; the initial Domain is not subdivided. *)
Theorem LocateMinima_depth0_best_sample ph ss c cs :
  fst (body ph ss c 0) = inr cs ->
  classify ss (initial_domain (phase_shape ph)) <> CertInfeasible /\
  exists p e,
    best_sample (initial_domain (phase_shape ph))
      (evaluated_samples' (mkStore ph ss c None)
         (classify ss (initial_domain (phase_shape ph)))
         (initial_domain (phase_shape ph))) = Some (p, e) /\
    cs = [mkCandidate p e (width (initial_domain (phase_shape ph)))].
Proof.
  unfold LocateMinima_body; simpl; unfold bind, get, ret, set_best; simpl.
  set (d0 := initial_domain (phase_shape ph)).
  destruct (classify ss d0) eqn:E; simpl; [done| |];
  (destruct (evaluated_samples' _ _ d0) as [|k r] eqn:Eks; simpl; [done|]);
  (destruct (new_bound (Some k.2) r) eqn:Eb;
   [|exfalso; eapply (new_bound_Some (Some k.2) r); [by left|done]]);
  simpl; intros [= <-]; (split; [done|]);
  unfold emit; simpl;
  (destruct (fold_left _ r k) as [p e]; exists p, e; done).
Qed.

(** Claim C3 (as amended; the first part for a sound Domain classifier):
    when the constraint set admits no feasible point in the initial Domain the
    call fails with [ConfigurationError].  More precisely, the call fails
    exactly when the initial Domain is classified certainly infeasible or none
    of its interior samples is kept (each is infeasible where checked or has
    an undefined energy), feasible points or not; otherwise it completes,
    whatever is pruned below the initial Domain. *)
Theorem LocateMinima_configuration_error :
  (forall ss d p, classify ss d = CertFeasible -> in_dom d p -> feasible ss p = true) ->
  forall ph ss c depth,
    ((forall p, in_dom (initial_domain (phase_shape ph)) p -> feasible ss p = false) ->
       LocateMinima' ph ss c depth = inl ConfigurationError) /\
    (classify ss (initial_domain (phase_shape ph)) = CertInfeasible \/
     evaluated_samples' (mkStore ph ss c None)
       (classify ss (initial_domain (phase_shape ph)))
       (initial_domain (phase_shape ph)) = [] ->
       LocateMinima' ph ss c depth = inl ConfigurationError) /\
    (classify ss (initial_domain (phase_shape ph)) <> CertInfeasible ->
     evaluated_samples' (mkStore ph ss c None)
       (classify ss (initial_domain (phase_shape ph)))
       (initial_domain (phase_shape ph)) <> [] ->
     LocateMinima' ph ss c depth = inr tt).
Proof.
  intros Hsound ph ss c depth. unfold LocateMinima, LocateMinima_body.
  split; [|split].
  - intros Hnf.
    rewrite (ezd_no_feasible Hsound depth _ (mkStore ph ss c None)
               (well_formed_initial _) Hnf).
    done.
  - set (d0 := initial_domain (phase_shape ph)).
    intros Hcond.
    destruct depth; simpl; unfold bind, get, ret, set_best; simpl;
      (destruct (classify ss d0) eqn:E; [done| |]);
      (destruct Hcond as [Hc|Hk]; [discriminate|]);
      rewrite Hk; done.
  - intros Hcls Hks.
    pose proof (ezd_first_sample_sets_best depth (initial_domain (phase_shape ph))
                  (mkStore ph ss c None) eq_refl Hcls Hks) as Hb.
    destruct (ezd _ _ _ _ _ _ _ _ _) as [cs st]. simpl in Hb.
    destruct (st_best st); [done|done].
Qed.

(** Claim C1 (as amended): [LocateMinima'] is declared [void], so no call
    returns a candidate set: a call completes with no value exactly when its
    body computes a candidate set, and fails with its body's error otherwise.
    Each candidate record the body computes holds a point shaped like the
    phase's sublattices, the energy evaluated at that point under the given
    conditions, and the width of the Domain (reached from the initial one by
    splits) of which the point is an interior sample. *)
Theorem LocateMinima_void_result ph ss c depth :
  (forall e, LocateMinima' ph ss c depth = inl e <-> fst (body ph ss c depth) = inl e) /\
  (LocateMinima' ph ss c depth = inr tt <-> exists cs, fst (body ph ss c depth) = inr cs) /\
  (forall cs, fst (body ph ss c depth) = inr cs ->
    Forall (fun k => shape (cm_point k) = phase_shape ph /\
                     energy ph c (cm_point k) = Some (cm_energy k) /\
                     exists d, descends (initial_domain (phase_shape ph)) d /\
                       In (cm_point k) (sample_points d) /\ cm_width k = width d) cs).
Proof.
  split; [|split].
  - intros e. unfold LocateMinima.
    destruct (fst (LocateMinima_body _ _ _ _ _ _ _ _ _ _ _)) as [e'|cs]; split; congruence.
  - unfold LocateMinima.
    destruct (fst (LocateMinima_body _ _ _ _ _ _ _ _ _ _ _)) as [e'|cs].
    + split; [discriminate|intros [cs H]; discriminate].
    + split; [intros _; by exists cs|done].
  - intros cs. unfold LocateMinima_body.
    pose proof (ezd_candidates energy feasible classify depth
                  (initial_domain (phase_shape ph)) (mkStore ph ss c None)) as Hc.
    destruct (ezd _ _ _ _ _ _ _ _ _) as [cs0 st].
    destruct (st_best st); simpl; [|done]. intros [= <-].
    apply dedup_Forall. apply List.Forall_forall. intros k Hk.
    destruct (Hc k Hk) as (d' & Hd' & _ & Hin & Hw).
    apply evaluated_samples_In in Hin as (Hp & _ & He). simpl in He.
    destruct (descends_props _ _ (well_formed_initial (phase_shape ph)) Hd')
      as (Hwf & Hsh & _).
    split; [|split; [done|by exists d']].
    destruct (sample_points_in_dom d' _ Hwf Hp) as (_ & ->).
    by rewrite Hsh, shape_initial.
Qed.

End EngineClaims.

(** ** Witnesses and counterexamples *)

Lemma split_partitions_parent_witness :
  well_formed (initial_domain [2%nat; 1%nat]) /\
  (forall p, in_dom (initial_domain [2%nat; 1%nat]) p <->
     exists c, In c (split (initial_domain [2%nat; 1%nat])) /\ in_dom c p).
Proof.
  assert (H : well_formed (initial_domain [2%nat; 1%nat]))
    by (apply well_formedb_sound; vm_compute; reflexivity).
  split; [exact H|].
  exact (proj1 (split_partitions_parent (initial_domain [2%nat; 1%nat]) H)).
Defined.

Lemma domain_invariant_preserved_witness :
  Forall well_formed (split (mkDomain [[0%Q; 1 # 4]] [[1%Q; 1 # 2]])).
Proof.
  apply (proj1 (proj2 domain_invariant_preserved)).
  apply well_formedb_sound; vm_compute; reflexivity.
Defined.

Lemma LocateMinima_candidates_feasible_witness :
  (forall ss d p, ex_mixed ss d = CertFeasible -> in_dom d p -> ex_half ss p = true) /\
  Forall (fun k => ex_half tt (cm_point k) = true)
    [{| cm_point := [[1 # 200; 1 # 200]]; cm_energy := 8121800 # 72000000;
        cm_width := 1 # 2 |}].
Proof.
  split; [intros ? ? ? H; discriminate|].
  apply (LocateMinima_candidates_feasible unit unit unit ex_shape ex_energy ex_half ex_mixed
           ltac:(intros ? ? ? H; discriminate) tt tt tt 2).
  vm_compute. reflexivity.
Defined.

Lemma LocateMinima_depth0_best_sample_witness :
  fst (LocateMinima_body unit unit unit ex_shape ex_energy ex_any ex_mixed tt tt tt 0) =
    inr [{| cm_point := [[1 # 100; 1 # 100]]; cm_energy := 1030900 # 9000000;
            cm_width := 1 |}] /\
  ex_mixed tt (initial_domain (ex_shape tt)) <> CertInfeasible.
Proof.
  assert (H : fst (LocateMinima_body unit unit unit ex_shape ex_energy ex_any ex_mixed
                     tt tt tt 0) =
              inr [{| cm_point := [[1 # 100; 1 # 100]]; cm_energy := 1030900 # 9000000;
                      cm_width := 1 |}]) by (vm_compute; reflexivity).
  split; [exact H|].
  exact (proj1 (LocateMinima_depth0_best_sample unit unit unit ex_shape ex_energy ex_any
                  ex_mixed tt tt tt _ H)).
Defined.

Lemma LocateMinima_configuration_error_witness :
  LocateMinima unit unit unit ex_shape ex_energy ex_none ex_mixed tt tt tt 1 =
    inl ConfigurationError /\
  LocateMinima unit unit unit ex_shape ex_undefined ex_any ex_mixed tt tt tt 2 =
    inl ConfigurationError /\
  LocateMinima unit unit unit ex_shape ex_energy ex_half ex_mixed tt tt tt 2 = inr tt.
Proof.
  split; [|split].
  - apply (proj1 (LocateMinima_configuration_error unit unit unit ex_shape ex_energy
                    ex_none ex_mixed ltac:(intros ? ? ? H; discriminate) tt tt tt 1)).
    intros p _. reflexivity.
  - apply (proj1 (proj2 (LocateMinima_configuration_error unit unit unit ex_shape
                    ex_undefined ex_any ex_mixed ltac:(intros ? ? ? H; discriminate)
                    tt tt tt 2))).
    right. vm_compute. reflexivity.
  - apply (proj2 (proj2 (LocateMinima_configuration_error unit unit unit ex_shape ex_energy
                    ex_half ex_mixed ltac:(intros ? ? ? H; discriminate) tt tt tt 2))).
    + discriminate.
    + vm_compute. discriminate.
Defined.

Lemma LocateMinima_void_result_witness :
  LocateMinima unit unit unit ex_shape ex_undefined ex_any ex_mixed tt tt tt 1 =
    inl ConfigurationError /\
  LocateMinima unit unit unit ex_shape ex_energy ex_any ex_mixed tt tt tt 1 = inr tt /\
  Forall (fun k => shape (cm_point k) = ex_shape tt /\
                   ex_energy tt tt (cm_point k) = Some (cm_energy k) /\
                   exists d, descends (initial_domain (ex_shape tt)) d /\
                     In (cm_point k) (sample_points d) /\ cm_width k = width d)
    [{| cm_point := [[1 # 200; 1 # 100]]; cm_energy := 4240900 # 36000000; cm_width := 1 |};
     {| cm_point := [[101 # 200; 1 # 100]]; cm_energy := 1420900 # 36000000;
        cm_width := 1 |}].
Proof.
  pose proof (LocateMinima_void_result unit unit unit ex_shape ex_undefined ex_any ex_mixed
                tt tt tt 1) as [H1 _].
  pose proof (LocateMinima_void_result unit unit unit ex_shape ex_energy ex_any ex_mixed
                tt tt tt 1) as [_ [H2 H3]].
  split; [|split].
  - apply H1. vm_compute. reflexivity.
  - apply H2. eexists. vm_compute. reflexivity.
  - apply H3. vm_compute. reflexivity.
Defined.

(** Claim C3 fails: the constraints admit a feasible point (the centroid of
    the initial Domain), yet the call fails, because every sampled energy is
    undefined (spec 7). *)
Lemma LocateMinima_error_with_feasible_points :
  in_dom (initial_domain (ex_shape tt)) (centroid (initial_domain (ex_shape tt))) /\
  ex_any tt (centroid (initial_domain (ex_shape tt))) = true /\
  LocateMinima unit unit unit ex_shape ex_undefined ex_any ex_mixed tt tt tt 1 =
    inl ConfigurationError.
Proof.
  split; [|split; [reflexivity|vm_compute; reflexivity]].
  apply sample_points_in_dom; [apply well_formed_initial|by left].
Qed.

(** Claim C1 fails: two calls whose bodies compute different candidate sets
    return the same value, so no candidate set is returned. *)
Lemma LocateMinima_result_carries_no_candidates :
  fst (LocateMinima_body unit unit unit ex_shape ex_energy ex_any ex_mixed tt tt tt 0) <>
  fst (LocateMinima_body unit unit unit ex_shape ex_energy ex_any ex_mixed tt tt tt 1) /\
  LocateMinima unit unit unit ex_shape ex_energy ex_any ex_mixed tt tt tt 0 =
  LocateMinima unit unit unit ex_shape ex_energy ex_any ex_mixed tt tt tt 1.
Proof.
  split; [vm_compute; congruence|vm_compute; reflexivity].
Qed.
